(** * blackjax.smc.base: the generic Sequential Monte Carlo step

    A shallow embedding of [src/blackjax/smc/base.py] ([SMCState],
    [SMCInfo], [init], [step]) over exact real arithmetic.

    - Arrays of floats are lists of [R]; a leaf of the particle tree is
      the list of its slices along the leading axis (one [row] per
      particle).  Leaves without a leading axis, on which [.shape[0]]
      fails, are not represented.
    - Python exceptions are the [Err] results of an error monad.
    - The three injected callables are functions that may raise; every
      call made to one of them is appended to a call log, so that the
      order of the phases of [step] can be stated.
    - The PRNG key type and [jax.random.split] are parameters of the
      development; counts ([num_resampled]) are natural numbers.
    - Rounding, infinities and NaN are outside the model: where the
      floating-point code would take the logarithm of 0, [ln] gives an
      unspecified real.  What rounding does to the normalisation of the
      weights is shown apart, on the numbers of the binary32 format. *)

From Stdlib Require Import List ZArith Reals Lra Lia.
From Stdlib Require String.
Import ListNotations.

Set Implicit Arguments.
Set Warnings "-register-all".

(** ** Exceptions and results *)

Inductive Exception : Type :=
| IndexError
| ValueError
| Raised (msg : String.string).

Inductive result (A : Type) : Type :=
| Ok (a : A)
| Err (e : Exception).

Arguments Ok {A} a.
Arguments Err {A} e.

Definition result_bind {A B} (r : result A) (f : A -> result B) : result B :=
  match r with
  | Ok a => f a
  | Err e => Err e
  end.

(** [[f(x) for x in l]] where [f] may raise: the first exception wins. *)
Definition mapM {A B} (f : A -> result B) : list A -> result (list B) :=
  fix go (l : list A) : result (list B) :=
    match l with
    | [] => Ok []
    | x :: l' =>
        result_bind (f x) (fun y =>
        result_bind (go l') (fun ys => Ok (y :: ys)))
    end.

(** ** PyTrees *)

Inductive PyTree (A : Type) : Type :=
| Leaf (a : A)
| Node (children : list (PyTree A)).

Arguments Leaf {A} a.
Arguments Node {A} children.

Section PyTreeInd.
Variable A : Type.
Variable P : PyTree A -> Prop.
Hypothesis Hleaf : forall a, P (Leaf a).
Hypothesis Hnode : forall cs, Forall P cs -> P (Node cs).

Fixpoint PyTree_nested_ind (t : PyTree A) : P t :=
  match t with
  | Leaf a => Hleaf a
  | Node cs =>
      Hnode ((fix all (l : list (PyTree A)) : Forall P l :=
                match l with
                | [] => Forall_nil P
                | c :: l' => Forall_cons c (PyTree_nested_ind c) (all l')
                end) cs)
  end.
End PyTreeInd.

(** [jax.tree_util.tree_flatten(t)[0]]: the leaves, left to right. *)
Fixpoint tree_flatten {A} (t : PyTree A) : list A :=
  match t with
  | Leaf a => [a]
  | Node cs => flat_map tree_flatten cs
  end.

(** [jax.tree_map(f, t)] for an [f] that may raise. *)
Fixpoint tree_map {A B} (f : A -> result B) (t : PyTree A) : result (PyTree B) :=
  match t with
  | Leaf a => result_bind (f a) (fun b => Ok (Leaf b))
  | Node cs => result_bind (mapM (tree_map f) cs) (fun ds => Ok (Node ds))
  end.

(** Two trees of the same shape whose corresponding leaves are related. *)
Inductive tree_rel {A B} (R : A -> B -> Prop) : PyTree A -> PyTree B -> Prop :=
| tree_rel_leaf : forall a b, R a b -> tree_rel R (Leaf a) (Leaf b)
| tree_rel_node : forall cs ds,
    Forall2 (tree_rel R) cs ds -> tree_rel R (Node cs) (Node ds).

(** The shape of a tree: its leaves forgotten. *)
Fixpoint tree_structure {A} (t : PyTree A) : PyTree unit :=
  match t with
  | Leaf _ => Leaf tt
  | Node cs => Node (map tree_structure cs)
  end.

(** ** Array indexing

    [x[i]] for an integer [i] held in an index array: a negative index
    counts from the end, and an index out of bounds is clamped to the
    nearest valid one (the array library's policy for reads).  There is
    nothing to read along an axis of size 0. *)

Definition normalize_index (n : nat) (i : Z) : Z :=
  if (i <? 0)%Z then (i + Z.of_nat n)%Z else i.

Definition clamp_index (n : nat) (i : Z) : nat :=
  Z.to_nat (Z.min (Z.max 0 i) (Z.of_nat n - 1)).

Definition getitem {A} (x : list A) (i : Z) : result A :=
  match nth_error x (clamp_index (length x) (normalize_index (length x) i)) with
  | Some r => Ok r
  | None => Err IndexError
  end.

(** [x[idx]] for an index array [idx]: one slice per index. *)
Definition take {A} (x : list A) (idx : list Z) : result (list A) :=
  mapM (getitem x) idx.

(** [y] is [x] read at the indices [idx], in order. *)
Definition gathered {A} (idx : list Z) (x y : list A) : Prop :=
  Forall2 (fun i r => getitem x i = Ok r) idx y.

(** [x] and [y] read the same at every index of [idx]. *)
Definition agree_at {A} (idx : list Z) (x y : list A) : Prop :=
  Forall (fun i => getitem x i = getitem y i) idx.

(** Every leaf of [p] has leading dimension [n]. *)
Definition leading_dimension {A} (p : PyTree (list A)) (n : nat) : Prop :=
  Forall (fun leaf => length leaf = n) (tree_flatten p).

(** A population of [n] particles: at least one leaf, and every leaf with
    leading dimension [n]. *)
Definition population {A} (p : PyTree (list A)) (n : nat) : Prop :=
  tree_flatten p <> [] /\ leading_dimension p n.

(** Two leaves of [p] have different leading dimensions. *)
Definition leaves_disagree {A} (p : PyTree (list A)) : Prop :=
  exists a b, In a (tree_flatten p) /\ In b (tree_flatten p) /\
              length a <> length b.

(** ** Real-valued array operations *)

Open Scope R_scope.

Definition Rsum (l : list R) : R := fold_right Rplus 0 l.

(** [jnp.max(a)]: a reduction with no identity, it raises on a zero-size
    array.  (Library versions that start the maximum at minus infinity
    give minus infinity there instead; either way an empty array has no
    real number for its log-sum-exp, and the [Err] below stands for both
    outcomes.) *)
Definition jnp_max (a : list R) : result R :=
  match a with
  | [] => Err ValueError
  | x :: l => Ok (fold_left Rmax l x)
  end.

(** [jax.scipy.special.logsumexp(a)]: the maximum is subtracted before
    exponentiating and added back after the logarithm. *)
Definition logsumexp (a : list R) : result R :=
  result_bind (jnp_max a) (fun amax =>
  Ok (ln (Rsum (map (fun x => exp (x - amax)) a)) + amax)).

(** [jnp.ones(n)] *)
Definition jnp_ones (n : nat) : list R := repeat 1 n.

(** ** The sampler: data model, call log, [init] and [step] *)

Section SMC.

(** Opaque collaborators: the key type with [jax.random.split], the type
    of one particle's slice of a leaf, and the record returned by the
    update function. *)
Variable PRNGKey : Type.
Variable random_split : PRNGKey -> nat -> list PRNGKey.
Variable row : Type.
Variable UpdateInfo : Type.

Definition Array : Type := list R.
Definition ArrayTree : Type := PyTree (list row).

Record SMCState : Type := {
  particles : ArrayTree;
  weights : Array
}.

Record SMCInfo : Type := {
  ancestors : list Z;
  log_likelihood_increment : R;
  update_info : UpdateInfo
}.

(** The injected callables. *)
Definition UpdateFn : Type :=
  list PRNGKey -> ArrayTree -> result (ArrayTree * UpdateInfo).
Definition WeightFn : Type := ArrayTree -> result Array.
Definition ResampleFn : Type := PRNGKey -> Array -> nat -> result (list Z).

(** One entry of the call log per call to an injected callable, with the
    arguments it received. *)
Inductive Call : Type :=
| CallResample (key : PRNGKey) (w : Array) (num : nat)
| CallUpdate (keys : list PRNGKey) (p : ArrayTree)
| CallWeight (p : ArrayTree).

(** Computations that may raise and that append to the call log; the log
    is kept when an exception is raised. *)
Definition Eff (A : Type) : Type := list Call -> result A * list Call.

Definition ret {A} (a : A) : Eff A := fun log => (Ok a, log).

Definition bind {A B} (m : Eff A) (f : A -> Eff B) : Eff B :=
  fun log =>
    match m log with
    | (Ok a, log') => f a log'
    | (Err e, log') => (Err e, log')
    end.

Definition lift {A} (r : result A) : Eff A := fun log => (r, log).

Definition call {A} (c : Call) (r : result A) : Eff A :=
  fun log => (r, log ++ [c]).

Notation "x <- m ;; k" := (bind m (fun x => k))
  (at level 61, m at next level, right associativity).

Definition run {A} (m : Eff A) : result A := fst (m []).
Definition calls {A} (m : Eff A) : list Call := snd (m []).

(** [a, b = l]: unpacking a sequence of two elements. *)
Definition unpack2 {A} (l : list A) : result (A * A) :=
  match l with
  | [a; b] => Ok (a, b)
  | _ => Err ValueError
  end.

(** [init]: the number of particles is the leading dimension of the
    first leaf. *)
Definition init (particles : ArrayTree) : result SMCState :=
  match tree_flatten particles with
  | [] => Err IndexError
  | leaf0 :: _ =>
      let num_particles := length leaf0 in
      let weights := map (fun o => o / INR num_particles) (jnp_ones num_particles) in
      Ok {| particles := particles; weights := weights |}
  end.

(** [step]: split the key, resample, gather, update, weigh, normalise. *)
Definition step (rng_key : PRNGKey) (state : SMCState)
    (update_fn : UpdateFn) (weight_fn : WeightFn) (resample_fn : ResampleFn)
    (num_resampled : option nat) : Eff (SMCState * SMCInfo) :=
  ks <- lift (unpack2 (random_split rng_key 2)) ;;
  let '(updating_key, resampling_key) := ks in
  let num_particles := length (weights state) in
  let num_resampled :=
    match num_resampled with
    | None => num_particles
    | Some n => n
    end in
  resampling_idx <-
    call (CallResample resampling_key (weights state) num_resampled)
         (resample_fn resampling_key (weights state) num_resampled) ;;
  particles <- lift (tree_map (fun x => take x resampling_idx) (particles state)) ;;
  let keys := random_split updating_key num_resampled in
  upd <- call (CallUpdate keys particles) (update_fn keys particles) ;;
  let '(particles, update_info) := upd in
  log_weights <- call (CallWeight particles) (weight_fn particles) ;;
  logsum_weights <- lift (logsumexp log_weights) ;;
  let normalizing_constant := logsum_weights - ln (INR num_particles) in
  let weights := map (fun lw => exp (lw - logsum_weights)) log_weights in
  ret ({| particles := particles; weights := weights |},
       {| ancestors := resampling_idx;
          log_likelihood_increment := normalizing_constant;
          update_info := update_info |}).

(** The number of particles [step] resamples: [num_resampled], or the
    length of the weight vector when it is omitted. *)
Definition resampled (state : SMCState) (num_resampled : option nat) : nat :=
  match num_resampled with
  | None => length (weights state)
  | Some n => n
  end.

(** *** Contracts of the injected callables *)

(** [resample_fn] returns as many indices as requested. *)
Definition resample_count (resample_fn : ResampleFn) : Prop :=
  forall key w n idx, resample_fn key w n = Ok idx -> length idx = n.

(** [resample_fn] returns indices into the weight vector it was given. *)
Definition resample_in_range (resample_fn : ResampleFn) : Prop :=
  forall key w n idx, resample_fn key w n = Ok idx ->
    Forall (fun i => (0 <= i < Z.of_nat (length w))%Z) idx.

(** Given one key per particle, [update_fn] returns as many particles as
    keys. *)
Definition update_count (update_fn : UpdateFn) : Prop :=
  forall keys p p' ui,
    leading_dimension p (length keys) ->
    update_fn keys p = Ok (p', ui) ->
    leading_dimension p' (length keys).

(** [weight_fn] returns one log-weight per particle. *)
Definition weight_count (weight_fn : WeightFn) : Prop :=
  forall p n lw,
    leading_dimension p n -> weight_fn p = Ok lw -> length lw = n.

(** *** The order of the phases

    [phases ... cs]: the calls [cs] that one invocation of [step] may add
    to the log, with what each call receives.  The invocation stops
    before any call when the key cannot be split in two; after the
    resampling call when resampling or the gather raises; after the
    update call when the update raises; and otherwise makes all three
    calls. *)
Inductive phases (rng_key : PRNGKey) (state : SMCState)
    (update_fn : UpdateFn) (weight_fn : WeightFn) (resample_fn : ResampleFn)
    (num_resampled : nat) : list Call -> Prop :=
| phases_split_raises :
    (forall uk rk, random_split rng_key 2 <> [uk; rk]) ->
    phases rng_key state update_fn weight_fn resample_fn num_resampled []
| phases_resample_raises : forall uk rk,
    random_split rng_key 2 = [uk; rk] ->
    (forall idx g,
        resample_fn rk (weights state) num_resampled = Ok idx ->
        ~ tree_rel (gathered idx) (particles state) g) ->
    phases rng_key state update_fn weight_fn resample_fn num_resampled
      [CallResample rk (weights state) num_resampled]
| phases_update_raises : forall uk rk idx g e,
    random_split rng_key 2 = [uk; rk] ->
    resample_fn rk (weights state) num_resampled = Ok idx ->
    tree_rel (gathered idx) (particles state) g ->
    update_fn (random_split uk num_resampled) g = Err e ->
    phases rng_key state update_fn weight_fn resample_fn num_resampled
      [CallResample rk (weights state) num_resampled;
       CallUpdate (random_split uk num_resampled) g]
| phases_all : forall uk rk idx g p' ui,
    random_split rng_key 2 = [uk; rk] ->
    resample_fn rk (weights state) num_resampled = Ok idx ->
    tree_rel (gathered idx) (particles state) g ->
    update_fn (random_split uk num_resampled) g = Ok (p', ui) ->
    phases rng_key state update_fn weight_fn resample_fn num_resampled
      [CallResample rk (weights state) num_resampled;
       CallUpdate (random_split uk num_resampled) g;
       CallWeight p'].

End SMC.

Arguments Build_SMCInfo {UpdateInfo} _ _ _.
Arguments CallResample {PRNGKey row} key w num.
Arguments CallUpdate {PRNGKey row} keys p.
Arguments CallWeight {PRNGKey row} p.

(** ** A small instance

    Keys are natural numbers, a leaf holds one real number per particle,
    and the update reports how many keys it was given. *)

Module Demo.

Import String.

Definition split (key : nat) (n : nat) : list nat :=
  map (fun i => (2 * key + i)%nat) (seq 1 n).

(** The [i]-th ancestor is particle [i] modulo the population size. *)
Definition round_robin : ResampleFn nat :=
  fun _ w n =>
    match w with
    | [] => Err (Raised "no particle to resample"%string)
    | _ => Ok (map (fun i => Z.of_nat (i mod List.length w)) (seq 0 n))
    end.

(** The particles are left where they are. *)
Definition keep : UpdateFn nat R nat :=
  fun keys p => Ok (p, List.length keys).

(** Every leaf is extended by a copy of its first slice. *)
Definition grow : UpdateFn nat R nat :=
  fun keys p =>
    result_bind (tree_map (fun leaf => Ok (leaf ++ firstn 1 leaf)) p)
                (fun p' => Ok (p', List.length keys)).

(** The log-weight of a particle is its value in the first leaf. *)
Definition first_leaf : WeightFn R :=
  fun p =>
    match tree_flatten p with
    | [] => Err (Raised "no leaf"%string)
    | leaf :: _ => Ok leaf
    end.

Definition state3 : SMCState R :=
  {| particles := Node [Leaf [1; 2; 4]; Node [Leaf [10; 20; 40]]];
     weights := [1 / 3; 1 / 3; 1 / 3] |}.

(** The same weights; the particles differ from [state3] at index 2
    only. *)
Definition state3' : SMCState R :=
  {| particles := Node [Leaf [1; 2; 5]; Node [Leaf [10; 20; 50]]];
     weights := [1 / 3; 1 / 3; 1 / 3] |}.

(** Two particles with equal weights, and a potential that gives every
    particle the log-weight 0. *)
Definition state2 : SMCState R :=
  {| particles := Leaf [5; 7]; weights := [1 / 2; 1 / 2] |}.

Definition flat : WeightFn R :=
  fun p =>
    match tree_flatten p with
    | [] => Err (Raised "no leaf"%string)
    | leaf :: _ => Ok (map (fun _ => 0) leaf)
    end.

(** Two leaves, of leading dimensions 2 and 3. *)
Definition ragged : ArrayTree R :=
  Node [Leaf [1; 2]; Leaf [10; 20; 30]].

End Demo.

(** ** Further material for the behaviour of [init] and [step] *)

(** The last line of the reweighting: [jnp.exp(log_weights -
    logsum_weights)], for any number used as [logsum_weights]. *)
Definition normalized_weights (log_weights : list R) (logsum_weights : R)
    : list R :=
  map (fun lw => exp (lw - logsum_weights)) log_weights.


(** [y] holds, in order, the entries of [x] at the positions [idx], each
    position being a valid one. *)
Definition selected {A} (idx : list Z) (x y : list A) : Prop :=
  Forall2 (fun i r => (0 <= i)%Z /\ nth_error x (Z.to_nat i) = Some r) idx y.

Module Cases.

Import String.

Definition resample_error : Exception := Raised "resample"%string.
Definition update_error : Exception := Raised "update"%string.
Definition weight_error : Exception := Raised "weight"%string.

Definition failing_resample : ResampleFn nat :=
  fun _ _ _ => Err resample_error.

Definition failing_update : UpdateFn nat R nat :=
  fun _ _ => Err update_error.

Definition failing_weight : WeightFn R :=
  fun _ => Err weight_error.

(** Every particle is its own ancestor, whatever number is requested. *)
Definition in_order : ResampleFn nat :=
  fun _ w _ => Ok (map Z.of_nat (seq 0 (List.length w))).

(** The particles of [Demo.state3] under other weights. *)
Definition state3w : SMCState R :=
  {| particles := particles Demo.state3;
     weights := [1 / 2; 1 / 4; 1 / 4] |}.

End Cases.

(** * Properties *)

(** ** Results and [mapM] *)

Lemma result_bind_ok {A B} (r : result A) (f : A -> result B) (b : B) :
  result_bind r f = Ok b -> exists a, r = Ok a /\ f a = Ok b.
Proof.
  destruct r as [a|e]; simpl; intros H.
  - exists a. split; [reflexivity | exact H].
  - discriminate H.
Qed.

Lemma mapM_Forall2 {A B} (f : A -> result B) (l : list A) (l' : list B) :
  mapM f l = Ok l' <-> Forall2 (fun a b => f a = Ok b) l l'.
Proof.
  revert l'. induction l as [|x l IH]; intros l'; simpl; split; intros H.
  - injection H as <-. constructor.
  - inversion H. reflexivity.
  - apply result_bind_ok in H as (y & Hy & H).
    apply result_bind_ok in H as (ys & Hys & H).
    injection H as <-. constructor; [exact Hy | apply IH; exact Hys].
  - inversion H as [|? b ? bs Hb Hbs]; subst.
    rewrite Hb. simpl. apply IH in Hbs. rewrite Hbs. reflexivity.
Qed.

Lemma mapM_length {A B} (f : A -> result B) (l : list A) (l' : list B) :
  mapM f l = Ok l' -> length l' = length l.
Proof.
  intros H. apply mapM_Forall2 in H.
  symmetry. eapply Forall2_length. exact H.
Qed.

Lemma mapM_ext_in {A B} (f g : A -> result B) (l : list A) :
  Forall (fun a => f a = g a) l -> mapM f l = mapM g l.
Proof.
  induction 1 as [|x l Hx _ IH]; simpl.
  - reflexivity.
  - rewrite Hx, IH. reflexivity.
Qed.

(** ** Indexing *)

Lemma getitem_in_range {A} (x : list A) (i : Z) :
  (0 <= i < Z.of_nat (length x))%Z ->
  exists r, nth_error x (Z.to_nat i) = Some r /\ getitem x i = Ok r.
Proof.
  intros Hi. unfold getitem, normalize_index, clamp_index.
  destruct (Z.ltb_spec i 0) as [Hneg|_]; [lia|].
  replace (Z.min (Z.max 0 i) (Z.of_nat (length x) - 1)) with i by lia.
  destruct (nth_error x (Z.to_nat i)) as [r|] eqn:E.
  - exists r. split; reflexivity.
  - apply nth_error_None in E. lia.
Qed.

Lemma getitem_total {A} (x : list A) (i : Z) :
  x <> [] -> exists r, getitem x i = Ok r.
Proof.
  intros Hx. unfold getitem.
  destruct (nth_error x _) as [r|] eqn:E.
  - exists r. reflexivity.
  - apply nth_error_None in E. unfold clamp_index in E.
    destruct x as [|a x]; [contradiction|]. simpl length in E. lia.
Qed.

Lemma getitem_empty {A} (i : Z) : getitem (@nil A) i = Err IndexError.
Proof.
  unfold getitem. destruct (clamp_index _ _); reflexivity.
Qed.

Lemma take_length {A} (x : list A) (idx : list Z) (y : list A) :
  take x idx = Ok y -> length y = length idx.
Proof. apply mapM_length. Qed.

Lemma take_total {A} (x : list A) (idx : list Z) :
  x <> [] -> exists y, take x idx = Ok y.
Proof.
  intros Hx. unfold take. induction idx as [|i idx [y Hy]]; simpl.
  - exists []. reflexivity.
  - destruct (getitem_total i Hx) as [r Hr].
    exists (r :: y). rewrite Hr. simpl. rewrite Hy. reflexivity.
Qed.

(** ** Trees *)

Lemma tree_map_rel {A B} (f : A -> result B) (t : PyTree A) (t' : PyTree B) :
  tree_map f t = Ok t' <-> tree_rel (fun a b => f a = Ok b) t t'.
Proof.
  revert t'. induction t as [a|cs IH] using PyTree_nested_ind; intros t'.
  - simpl. split; intros H.
    + apply result_bind_ok in H as (b & Hb & H). injection H as <-.
      constructor. exact Hb.
    + inversion H as [? b Hb|]; subst. rewrite Hb. reflexivity.
  - simpl. split; intros H.
    + apply result_bind_ok in H as (ds & Hds & H). injection H as <-.
      constructor. apply mapM_Forall2 in Hds.
      revert IH. induction Hds as [|c d cs ds Hcd _ IHl]; intros IH.
      * constructor.
      * inversion IH as [|? ? IHc IHcs]; subst.
        constructor; [apply IHc; exact Hcd | apply IHl; exact IHcs].
    + inversion H as [|? ds Hds]; subst.
      assert (E : mapM (tree_map f) cs = Ok ds).
      { apply mapM_Forall2. clear H.
        revert IH. induction Hds as [|c d cs ds Hcd _ IHl]; intros IH.
        - constructor.
        - inversion IH as [|? ? IHc IHcs]; subst.
          constructor; [apply IHc; exact Hcd | apply IHl; exact IHcs]. }
      rewrite E. reflexivity.
Qed.

Lemma tree_rel_structure {A B} (R : A -> B -> Prop) (t : PyTree A) (t' : PyTree B) :
  tree_rel R t t' -> tree_structure t' = tree_structure t.
Proof.
  revert t'. induction t as [a|cs IH] using PyTree_nested_ind; intros t' H.
  - inversion H; subst. reflexivity.
  - inversion H as [|? ds Hds]; subst. simpl. f_equal. clear H.
    revert IH. induction Hds as [|c d cs ds Hcd _ IHl]; intros IH.
    + reflexivity.
    + inversion IH as [|? ? IHc IHcs]; subst. simpl.
      rewrite (IHc _ Hcd), (IHl IHcs). reflexivity.
Qed.

Lemma tree_rel_flatten {A B} (R : A -> B -> Prop) (t : PyTree A) (t' : PyTree B) :
  tree_rel R t t' -> Forall2 R (tree_flatten t) (tree_flatten t').
Proof.
  revert t'. induction t as [a|cs IH] using PyTree_nested_ind; intros t' H.
  - inversion H; subst. simpl. constructor; [assumption | constructor].
  - inversion H as [|? ds Hds]; subst. simpl. clear H.
    revert IH. induction Hds as [|c d cs ds Hcd _ IHl]; intros IH.
    + constructor.
    + inversion IH as [|? ? IHc IHcs]; subst. simpl.
      apply Forall2_app; [apply IHc; exact Hcd | apply IHl; exact IHcs].
Qed.

Lemma tree_rel_impl {A B} (R S : A -> B -> Prop) (t : PyTree A) (t' : PyTree B) :
  (forall a b, R a b -> S a b) -> tree_rel R t t' -> tree_rel S t t'.
Proof.
  intros HRS. revert t'.
  induction t as [a|cs IH] using PyTree_nested_ind; intros t' H.
  - inversion H; subst. constructor. apply HRS. assumption.
  - inversion H as [|? ds Hds]; subst. constructor. clear H.
    revert IH. induction Hds as [|c d cs ds Hcd _ IHl]; intros IH.
    + constructor.
    + inversion IH as [|? ? IHc IHcs]; subst.
      constructor; [apply IHc; exact Hcd | apply IHl; exact IHcs].
Qed.

(** [tree_map] returns when [f] returns on every leaf. *)
Lemma tree_map_total {A B} (f : A -> result B) (t : PyTree A) :
  Forall (fun a => exists b, f a = Ok b) (tree_flatten t) ->
  exists t', tree_map f t = Ok t'.
Proof.
  induction t as [a|cs IH] using PyTree_nested_ind; simpl; intros H.
  - inversion H as [|? ? [b Hb] _]; subst. rewrite Hb. simpl.
    eexists. reflexivity.
  - assert (E : exists ds, mapM (tree_map f) cs = Ok ds).
    { induction IH as [|c cs IHc _ IHcs]; simpl in *.
      - exists []. reflexivity.
      - apply Forall_app in H as [Hc Hcs].
        destruct (IHc Hc) as [d Hd]. destruct (IHcs Hcs) as [ds Hds].
        rewrite Hd. simpl. rewrite Hds. simpl. eexists. reflexivity. }
    destruct E as [ds Hds]. rewrite Hds. simpl. eexists. reflexivity.
Qed.

(** Trees of one shape whose leaves are mapped to equal results are
    mapped to equal results. *)
Lemma tree_map_rel_eq {A B} (f g : A -> result B) (t u : PyTree A) :
  tree_rel (fun a b => f a = g b) t u -> tree_map f t = tree_map g u.
Proof.
  revert u. induction t as [a|cs IH] using PyTree_nested_ind; intros u H.
  - inversion H as [? b Hab|]; subst. simpl. rewrite Hab. reflexivity.
  - inversion H as [|? ds Hds]; subst. simpl.
    assert (E : mapM (tree_map f) cs = mapM (tree_map g) ds).
    { clear H. revert IH. induction Hds as [|c d cs ds Hcd _ IHl]; intros IH.
      - reflexivity.
      - inversion IH as [|? ? IHc IHcs]; subst. simpl.
        rewrite (IHc _ Hcd), (IHl IHcs). reflexivity. }
    rewrite E. reflexivity.
Qed.

(** ** Sums, exponentials and log-sum-exp *)

Lemma Rsum_map_scale {A} (c : R) (f : A -> R) (l : list A) :
  Rsum (map (fun x => c * f x) l) = c * Rsum (map f l).
Proof.
  induction l as [|x l IH]; simpl.
  - lra.
  - rewrite IH. lra.
Qed.

Lemma Rsum_map_ext {A} (f g : A -> R) (l : list A) :
  (forall x, f x = g x) -> Rsum (map f l) = Rsum (map g l).
Proof.
  intros E. induction l as [|x l IH]; simpl.
  - reflexivity.
  - rewrite E, IH. reflexivity.
Qed.

Lemma Rsum_exp_nonneg (l : list R) : 0 <= Rsum (map exp l).
Proof.
  induction l as [|x l IH]; simpl.
  - lra.
  - pose proof (exp_pos x). lra.
Qed.

Lemma Rsum_exp_pos (l : list R) : l <> [] -> 0 < Rsum (map exp l).
Proof.
  destruct l as [|x l]; [contradiction|]. intros _. simpl.
  pose proof (exp_pos x). pose proof (Rsum_exp_nonneg l). lra.
Qed.

Lemma Rsum_exp_shift (m : R) (l : list R) :
  Rsum (map (fun x => exp (x - m)) l) = exp (- m) * Rsum (map exp l).
Proof.
  rewrite <- Rsum_map_scale. apply Rsum_map_ext. intros x.
  rewrite <- exp_plus. f_equal. lra.
Qed.

Lemma Rsum_repeat (c : R) (n : nat) : Rsum (repeat c n) = INR n * c.
Proof.
  induction n as [|n IH].
  - simpl. lra.
  - change (repeat c (S n)) with (c :: repeat c n).
    simpl Rsum. rewrite IH, S_INR. lra.
Qed.

Lemma jnp_max_ok (a : list R) : a <> [] <-> exists m, jnp_max a = Ok m.
Proof.
  destruct a as [|x l]; simpl; split.
  - contradiction.
  - intros [m H]. discriminate H.
  - intros _. eexists. reflexivity.
  - intros _. discriminate.
Qed.

(** The stabilised computation returns the logarithm of the sum of the
    exponentials. *)
Lemma logsumexp_ln_sum_exp (a : list R) (v : R) :
  logsumexp a = Ok v -> a <> [] /\ v = ln (Rsum (map exp a)).
Proof.
  unfold logsumexp. intros H.
  apply result_bind_ok in H as (m & Hm & H). injection H as <-.
  assert (Ha : a <> []) by (apply jnp_max_ok; exists m; exact Hm).
  split; [exact Ha|].
  rewrite Rsum_exp_shift.
  rewrite ln_mult; [| apply exp_pos | apply Rsum_exp_pos; exact Ha].
  rewrite ln_exp. lra.
Qed.

Lemma logsumexp_ok (a : list R) : a <> [] -> exists v, logsumexp a = Ok v.
Proof.
  intros Ha. apply jnp_max_ok in Ha as [m Hm].
  unfold logsumexp. rewrite Hm. simpl. eexists. reflexivity.
Qed.

Lemma logsumexp_empty : logsumexp [] = Err ValueError.
Proof. reflexivity. Qed.



(** ** Initialisation *)

Section InitProperties.

Variable row : Type.

Lemma init_first_leaf (p : ArrayTree row) (leaf0 : list row)
    (rest : list (list row)) :
  tree_flatten p = leaf0 :: rest ->
  init p = Ok {| particles := p;
                 weights := repeat (1 / INR (length leaf0)) (length leaf0) |}.
Proof.
  intros E. unfold init, jnp_ones. rewrite E. rewrite map_repeat. reflexivity.
Qed.

(** A tree without leaves has no first leaf to measure. *)
Lemma init_no_leaf (p : ArrayTree row) :
  tree_flatten p = [] -> init p = Err IndexError.
Proof. intros E. unfold init. rewrite E. reflexivity. Qed.

(** C4: for a particle tree with at least one leaf whose leaves all have
    leading dimension [N >= 1], [init] returns the population made of
    these particles and of [N] weights, each equal to [1 / N]; the
    weights sum to 1. *)
Theorem init_uniform (p : ArrayTree row) (N : nat) :
  population p N ->
  (1 <= N)%nat ->
  exists state,
    init p = Ok state /\
    particles state = p /\
    weights state = repeat (1 / INR N) N /\
    length (weights state) = N /\
    Rsum (weights state) = 1.
Proof.
  intros [Hne Hdim] HN.
  destruct (tree_flatten p) as [|leaf0 rest] eqn:E; [contradiction|].
  assert (Hlen : length leaf0 = N).
  { unfold leading_dimension in Hdim. rewrite E in Hdim.
    inversion Hdim; assumption. }
  eexists. split; [apply (init_first_leaf p E)|]. simpl. rewrite Hlen.
  repeat split.
  - apply repeat_length.
  - rewrite Rsum_repeat. field.
    apply not_0_INR. lia.
Qed.

(** C5, as the code has it: [init] does not compare the leaves.  For a
    particle tree whose leaves disagree on their leading dimension it
    returns the population made of these particles and of the uniform
    weights for the leading dimension of the first leaf. *)
Theorem init_ignores_mismatch (p : ArrayTree row) :
  leaves_disagree p ->
  exists leaf0 rest,
    tree_flatten p = leaf0 :: rest /\
    init p = Ok {| particles := p;
                   weights := repeat (1 / INR (length leaf0))
                                     (length leaf0) |}.
Proof.
  intros (a & b & Ha & _ & _).
  destruct (tree_flatten p) as [|leaf0 rest] eqn:E; [contradiction|].
  exists leaf0, rest. split; [reflexivity|]. apply (init_first_leaf p E).
Qed.

End InitProperties.

(** ** The step *)

Section StepProperties.

Variable PRNGKey : Type.
Variable random_split : PRNGKey -> nat -> list PRNGKey.
Variable row : Type.
Variable UpdateInfo : Type.

(** [jax.random.split(key, n)] returns [n] keys. *)
Hypothesis random_split_length :
  forall key n, length (random_split key n) = n.

Implicit Types (rng_key : PRNGKey) (state : SMCState row)
  (update_fn : UpdateFn PRNGKey row UpdateInfo) (weight_fn : WeightFn row)
  (resample_fn : ResampleFn PRNGKey) (num_resampled : option nat)
  (log : list (Call PRNGKey row)).

Lemma unpack2_ok {A} (l : list A) (a b : A) :
  unpack2 l = Ok (a, b) <-> l = [a; b].
Proof.
  destruct l as [|x [|y [|z l]]]; simpl; split; intros H;
    try discriminate H; congruence.
Qed.

Lemma random_split_pair rng_key :
  exists uk rk, random_split rng_key 2 = [uk; rk].
Proof.
  pose proof (random_split_length rng_key 2) as H.
  destruct (random_split rng_key 2) as [|uk [|rk [|z l]]]; try discriminate H.
  exists uk, rk. reflexivity.
Qed.

(** A successful invocation, phase by phase. *)
Lemma step_ok_inv rng_key state update_fn weight_fn resample_fn num_resampled
    log state' info log' :
  step random_split rng_key state update_fn weight_fn resample_fn
       num_resampled log = (Ok (state', info), log') ->
  exists uk rk idx g ui lw lse,
    random_split rng_key 2 = [uk; rk] /\
    resample_fn rk (weights state) (resampled state num_resampled) = Ok idx /\
    tree_map (fun x => take x idx) (particles state) = Ok g /\
    update_fn (random_split uk (resampled state num_resampled)) g
      = Ok (particles state', ui) /\
    weight_fn (particles state') = Ok lw /\
    logsumexp lw = Ok lse /\
    weights state' = map (fun x => exp (x - lse)) lw /\
    info = {| ancestors := idx;
              log_likelihood_increment :=
                lse - ln (INR (length (weights state)));
              update_info := ui |} /\
    log' = log ++
      [CallResample rk (weights state) (resampled state num_resampled);
       CallUpdate (random_split uk (resampled state num_resampled)) g;
       CallWeight (particles state')].
Proof.
  unfold step, bind, lift, call, ret. fold (resampled state num_resampled).
  destruct (unpack2 (random_split rng_key 2)) as [[uk rk]|e] eqn:Esplit;
    [|discriminate].
  apply unpack2_ok in Esplit.
  destruct (resample_fn rk _ _) as [idx|e] eqn:Eidx; [|discriminate].
  destruct (tree_map _ (particles state)) as [g|e] eqn:Eg; [|discriminate].
  destruct (update_fn _ g) as [[p' ui]|e] eqn:Eupd; [|discriminate].
  destruct (weight_fn p') as [lw|e] eqn:Elw; [|discriminate].
  destruct (logsumexp lw) as [lse|e] eqn:Else; [|discriminate].
  intros H. injection H as <- <- <-. simpl.
  exists uk, rk, idx, g, ui, lw, lse.
  rewrite <- !app_assoc. simpl. repeat split; assumption.
Qed.

Lemma run_step_ok_inv rng_key state update_fn weight_fn resample_fn
    num_resampled state' info :
  run (step random_split rng_key state update_fn weight_fn resample_fn
            num_resampled) = Ok (state', info) ->
  exists uk rk idx g ui lw lse,
    random_split rng_key 2 = [uk; rk] /\
    resample_fn rk (weights state) (resampled state num_resampled) = Ok idx /\
    tree_map (fun x => take x idx) (particles state) = Ok g /\
    update_fn (random_split uk (resampled state num_resampled)) g
      = Ok (particles state', ui) /\
    weight_fn (particles state') = Ok lw /\
    logsumexp lw = Ok lse /\
    weights state' = map (fun x => exp (x - lse)) lw /\
    info = {| ancestors := idx;
              log_likelihood_increment :=
                lse - ln (INR (length (weights state)));
              update_info := ui |}.
Proof.
  unfold run. intros H.
  destruct (step _ _ _ _ _ _ _ []) as [r log'] eqn:E. simpl in H. subst r.
  apply step_ok_inv in E as (uk & rk & idx & g & ui & lw & lse & E).
  exists uk, rk, idx, g, ui, lw, lse. tauto.
Qed.

(** Conversely, when every phase returns, so does [step]. *)
Lemma run_step_ok_intro rng_key state update_fn weight_fn resample_fn
    num_resampled uk rk idx g p' ui lw lse :
  random_split rng_key 2 = [uk; rk] ->
  resample_fn rk (weights state) (resampled state num_resampled) = Ok idx ->
  tree_map (fun x => take x idx) (particles state) = Ok g ->
  update_fn (random_split uk (resampled state num_resampled)) g
    = Ok (p', ui) ->
  weight_fn p' = Ok lw ->
  logsumexp lw = Ok lse ->
  run (step random_split rng_key state update_fn weight_fn resample_fn
            num_resampled)
  = Ok ({| particles := p';
           weights := map (fun x => exp (x - lse)) lw |},
        {| ancestors := idx;
           log_likelihood_increment :=
             lse - ln (INR (length (weights state)));
           update_info := ui |}).
Proof.
  intros Hs Hidx Hg Hupd Hlw Hlse.
  unfold run, step, bind, lift, call, ret.
  fold (resampled state num_resampled).
  rewrite Hs. simpl. rewrite Hidx, Hg, Hupd, Hlw, Hlse. reflexivity.
Qed.

(** The calls and the result of [step] do not depend on the log it
    starts from. *)
Lemma step_log_frame rng_key state update_fn weight_fn resample_fn
    num_resampled log :
  step random_split rng_key state update_fn weight_fn resample_fn
       num_resampled log
  = (run (step random_split rng_key state update_fn weight_fn resample_fn
               num_resampled),
     log ++ calls (step random_split rng_key state update_fn weight_fn
                        resample_fn num_resampled)).
Proof.
  unfold run, calls, step, bind, lift, call, ret.
  destruct (unpack2 (random_split rng_key 2)) as [[uk rk]|e];
    [|simpl; rewrite app_nil_r; reflexivity].
  destruct (resample_fn rk _ _) as [idx|e]; [|reflexivity].
  destruct (tree_map _ (particles state)) as [g|e]; [|reflexivity].
  destruct (update_fn _ g) as [[p' ui]|e];
    [|simpl; rewrite <- app_assoc; reflexivity].
  destruct (weight_fn p') as [lw|e];
    [|simpl; rewrite <- !app_assoc; reflexivity].
  destruct (logsumexp lw) as [lse|e];
    simpl; rewrite <- !app_assoc; reflexivity.
Qed.

(** [step] only sees the injected callables through their values. *)
Lemma step_ext rng_key state num_resampled
    (update_fn update_fn' : UpdateFn PRNGKey row UpdateInfo)
    (weight_fn weight_fn' : WeightFn row)
    (resample_fn resample_fn' : ResampleFn PRNGKey) log :
  (forall keys p, update_fn keys p = update_fn' keys p) ->
  (forall p, weight_fn p = weight_fn' p) ->
  (forall key w n, resample_fn key w n = resample_fn' key w n) ->
  step random_split rng_key state update_fn weight_fn resample_fn
       num_resampled log
  = step random_split rng_key state update_fn' weight_fn' resample_fn'
         num_resampled log.
Proof.
  intros Hu Hw Hr. unfold step, bind, lift, call, ret.
  destruct (unpack2 (random_split rng_key 2)) as [[uk rk]|e]; [|reflexivity].
  rewrite <- Hr.
  destruct (resample_fn rk _ _) as [idx|e]; [|reflexivity].
  destruct (tree_map _ (particles state)) as [g|e]; [|reflexivity].
  rewrite <- Hu.
  destruct (update_fn _ g) as [[p' ui]|e]; [|reflexivity].
  rewrite <- Hw. reflexivity.
Qed.

Lemma take_gathered (x : list row) (idx : list Z) (y : list row) :
  take x idx = Ok y <-> gathered idx x y.
Proof. apply mapM_Forall2. Qed.

(** The gather of [step] succeeds exactly on the trees that are read
    leaf by leaf at the indices, the shape kept. *)
Lemma tree_gather_rel (idx : list Z) (p g : ArrayTree row) :
  tree_map (fun x => take x idx) p = Ok g <-> tree_rel (gathered idx) p g.
Proof.
  rewrite tree_map_rel. split; apply tree_rel_impl; intros a b H;
    apply take_gathered; exact H.
Qed.

Lemma tree_gather_leading_dimension (idx : list Z) (p g : ArrayTree row) :
  tree_map (fun x => take x idx) p = Ok g ->
  leading_dimension g (length idx).
Proof.
  intros H. apply tree_map_rel, tree_rel_flatten in H.
  unfold leading_dimension.
  induction H as [|x y xs ys Hxy _ IH]; constructor.
  - apply take_length with (x := x). exact Hxy.
  - exact IH.
Qed.

Lemma tree_gather_has_leaf (idx : list Z) (p g : ArrayTree row) :
  tree_map (fun x => take x idx) p = Ok g ->
  tree_flatten p <> [] -> tree_flatten g <> [].
Proof.
  intros H Hp Hg. apply tree_map_rel, tree_rel_flatten in H.
  rewrite Hg in H. inversion H as [E|]. symmetry in E. contradiction.
Qed.

(** A tree whose leaves are all non-empty can be gathered at any
    indices. *)
Lemma tree_gather_total (idx : list Z) (p : ArrayTree row) :
  Forall (fun leaf => leaf <> []) (tree_flatten p) ->
  exists g, tree_map (fun x => take x idx) p = Ok g.
Proof.
  intros H. apply tree_map_total.
  eapply Forall_impl; [|exact H]. simpl. intros leaf Hl.
  apply take_total. exact Hl.
Qed.

(** *** The log-likelihood increment *)


(** *** The returned weights *)


(** *** The order of the phases *)

(** C3: every invocation of [step], successful or not, adds to the call
    log a sequence of calls allowed by [phases]: first [resample_fn] on
    the current weights; then, only if it returned indices and the
    particle tree was gathered at them leaf by leaf with its shape kept,
    [update_fn] on the gathered tree; then, only if that returned,
    [weight_fn] on the particles [update_fn] returned.  An invocation
    that returns has made the three calls, the last one on the particles
    it returns. *)
Theorem step_phase_order rng_key state update_fn weight_fn resample_fn
    num_resampled log :
  exists cs,
    snd (step random_split rng_key state update_fn weight_fn resample_fn
              num_resampled log) = log ++ cs /\
    phases random_split rng_key state update_fn weight_fn resample_fn
           (resampled state num_resampled) cs /\
    (forall r,
        fst (step random_split rng_key state update_fn weight_fn resample_fn
                  num_resampled log) = Ok r ->
        exists c1 c2, cs = [c1; c2; CallWeight (particles (fst r))]).
Proof.
  unfold step, bind, lift, call, ret. fold (resampled state num_resampled).
  set (M := resampled state num_resampled).
  destruct (unpack2 (random_split rng_key 2)) as [[uk rk]|e] eqn:Esplit.
  2:{ exists []. simpl. rewrite app_nil_r. repeat split.
      - apply phases_split_raises. intros uk rk E.
        rewrite E in Esplit. discriminate Esplit.
      - intros r H. discriminate H. }
  apply unpack2_ok in Esplit.
  destruct (resample_fn rk (weights state) M) as [idx|e] eqn:Eidx.
  2:{ exists [CallResample rk (weights state) M]. simpl. repeat split.
      - apply phases_resample_raises with (uk := uk); [exact Esplit|].
        intros idx g E. rewrite E in Eidx. discriminate Eidx.
      - intros r H. discriminate H. }
  destruct (tree_map _ (particles state)) as [g|e] eqn:Eg.
  2:{ exists [CallResample rk (weights state) M]. simpl. repeat split.
      - apply phases_resample_raises with (uk := uk); [exact Esplit|].
        intros idx' g E Hg. rewrite E in Eidx. injection Eidx as ->.
        apply tree_gather_rel in Hg. rewrite Hg in Eg. discriminate Eg.
      - intros r H. discriminate H. }
  pose proof Eg as Hg. apply tree_gather_rel in Hg.
  destruct (update_fn (random_split uk M) g) as [[p' ui]|e] eqn:Eupd.
  2:{ exists [CallResample rk (weights state) M;
              CallUpdate (random_split uk M) g].
      simpl. rewrite <- app_assoc. repeat split.
      - apply phases_update_raises with (idx := idx) (e := e); assumption.
      - intros r H. discriminate H. }
  exists [CallResample rk (weights state) M;
          CallUpdate (random_split uk M) g; CallWeight p'].
  assert (Hph : phases random_split rng_key state update_fn weight_fn
                  resample_fn M
                  [CallResample rk (weights state) M;
                   CallUpdate (random_split uk M) g; CallWeight p']).
  { apply phases_all with (idx := idx) (ui := ui); assumption. }
  destruct (weight_fn p') as [lw|e] eqn:Elw.
  2:{ simpl. rewrite <- !app_assoc. repeat split; [exact Hph|].
      intros r H. discriminate H. }
  destruct (logsumexp lw) as [lse|e] eqn:Else.
  2:{ simpl. rewrite <- !app_assoc. repeat split; [exact Hph|].
      intros r H. discriminate H. }
  simpl. rewrite <- !app_assoc. repeat split; [exact Hph|].
  intros r H. injection H as <-. simpl. eexists _, _. reflexivity.
Qed.

(** *** Ancestors *)

(** C8: whenever [step] returns, the ancestors of the report are the
    indices that [resample_fn] returned for the resampling key, the
    current weights and the number of particles to resample; when
    [resample_fn] honours its contract there are as many ancestors as
    particles to resample and each is an index into the incoming weight
    vector. *)
Theorem step_ancestors rng_key state update_fn weight_fn resample_fn
    num_resampled state' info :
  run (step random_split rng_key state update_fn weight_fn resample_fn
            num_resampled) = Ok (state', info) ->
  (exists uk rk,
      random_split rng_key 2 = [uk; rk] /\
      resample_fn rk (weights state) (resampled state num_resampled)
        = Ok (ancestors info)) /\
  (resample_count resample_fn ->
     length (ancestors info) = resampled state num_resampled) /\
  (resample_in_range resample_fn ->
     Forall (fun i => (0 <= i < Z.of_nat (length (weights state)))%Z)
            (ancestors info)).
Proof.
  intros H.
  apply run_step_ok_inv in H
    as (uk & rk & idx & g & ui & lw & lse & Hs & Hidx & _ & _ & _ & _ & _ & ->).
  simpl. repeat split.
  - exists uk, rk. split; assumption.
  - intros Hc. apply (Hc _ _ _ _ Hidx).
  - intros Hr. apply (Hr _ _ _ _ Hidx).
Qed.

(** *** Population size *)

(** C7: with [num_resampled] omitted, [step] resamples as many particles
    as the weight vector is long; when [resample_fn] returns as many
    indices as requested, [update_fn] as many particles as keys and
    [weight_fn] one log-weight per particle, the weight vector that
    [step] returns is as long as the one it received. *)
Theorem step_default_preserves_size rng_key state update_fn weight_fn
    resample_fn state' info :
  resample_count resample_fn ->
  update_count update_fn ->
  weight_count weight_fn ->
  run (step random_split rng_key state update_fn weight_fn resample_fn None)
    = Ok (state', info) ->
  (exists uk rk,
      random_split rng_key 2 = [uk; rk] /\
      resample_fn rk (weights state) (length (weights state))
        = Ok (ancestors info)) /\
  length (weights state') = length (weights state).
Proof.
  intros Hr Hu Hw H.
  apply run_step_ok_inv in H
    as (uk & rk & idx & g & ui & lw & lse & Hs & Hidx & Hg & Hupd & Hlw & _ & -> & ->).
  simpl in Hidx, Hupd. split.
  - exists uk, rk. split; assumption.
  - rewrite length_map.
    apply Hr in Hidx.
    apply tree_gather_leading_dimension in Hg. rewrite Hidx in Hg.
    apply Hu in Hupd; rewrite random_split_length in *; [|exact Hg].
    apply (Hw _ _ _ Hupd Hlw).
Qed.

(** C9: waste-free mode.  For a population of size [N], a number
    [M < N] of particles to resample, a [resample_fn] that returns [M]
    indices, an [update_fn] that returns [N] particles from [M] keys and
    [M] particles, and a [weight_fn] that returns one log-weight per
    particle, [step] returns, and the population it returns has size
    [N]: nothing ties the size of the output to [num_resampled]. *)
Theorem step_waste_free rng_key state update_fn weight_fn resample_fn
    (M N : nat) :
  length (weights state) = N ->
  population (particles state) N ->
  (M < N)%nat ->
  (forall key, exists idx,
      resample_fn key (weights state) M = Ok idx /\ length idx = M) ->
  (forall keys p,
      length keys = M -> population p M ->
      exists p' ui, update_fn keys p = Ok (p', ui) /\ population p' N) ->
  (forall p,
      population p N -> exists lw, weight_fn p = Ok lw /\ length lw = N) ->
  exists state' info,
    run (step random_split rng_key state update_fn weight_fn resample_fn
              (Some M)) = Ok (state', info) /\
    length (ancestors info) = M /\
    population (particles state') N /\
    length (weights state') = N.
Proof.
  intros HN [Hleaf Hst] HM Hr Hu Hw.
  destruct (random_split_pair rng_key) as (uk & rk & Hs).
  destruct (Hr rk) as (idx & Hidx & Hlen).
  destruct (tree_gather_total idx (particles state)) as [g Hg].
  { eapply Forall_impl; [|exact Hst]. simpl. intros leaf Hl ->.
    simpl in Hl. lia. }
  assert (Hgpop : population g M).
  { split.
    - apply (tree_gather_has_leaf _ _ Hg Hleaf).
    - rewrite <- Hlen. apply (tree_gather_leading_dimension _ _ Hg). }
  destruct (Hu (random_split uk M) g (random_split_length uk M) Hgpop)
    as (p' & ui & Hupd & Hp').
  destruct (Hw p' Hp') as (lw & Hlw & Hlwlen).
  destruct (@logsumexp_ok lw) as [lse Hlse].
  { intros ->. simpl in Hlwlen. lia. }
  eexists _, _. split.
  - apply run_step_ok_intro with (uk := uk) (rk := rk) (g := g); eassumption.
  - simpl. rewrite length_map. repeat split; try assumption; apply Hp'.
Qed.

(** *** Particles that were not resampled *)

Lemma agree_at_take (idx : list Z) (x y : list row) :
  agree_at idx x y -> take x idx = take y idx.
Proof. apply mapM_ext_in. Qed.

(** C10: two states with the same weights whose particle trees have the
    same shape and read the same, leaf by leaf, at every index that
    [resample_fn] returns, give the same result and the same calls: the
    incoming particles are read only through the gather at the
    ancestors. *)
Theorem step_reads_only_ancestors rng_key state1 state2 update_fn weight_fn
    resample_fn num_resampled :
  weights state1 = weights state2 ->
  (forall uk rk idx,
      random_split rng_key 2 = [uk; rk] ->
      resample_fn rk (weights state1) (resampled state1 num_resampled)
        = Ok idx ->
      tree_rel (agree_at idx) (particles state1) (particles state2)) ->
  run (step random_split rng_key state1 update_fn weight_fn resample_fn
            num_resampled)
  = run (step random_split rng_key state2 update_fn weight_fn resample_fn
              num_resampled) /\
  calls (step random_split rng_key state1 update_fn weight_fn resample_fn
              num_resampled)
  = calls (step random_split rng_key state2 update_fn weight_fn resample_fn
                num_resampled).
Proof.
  intros Hw Hagree.
  assert (E : step random_split rng_key state1 update_fn weight_fn
                   resample_fn num_resampled []
              = step random_split rng_key state2 update_fn weight_fn
                     resample_fn num_resampled []).
  { revert Hagree. unfold step, bind, lift, call, ret, resampled.
    rewrite <- Hw.
    destruct (unpack2 (random_split rng_key 2)) as [[uk rk]|e] eqn:Es;
      [|reflexivity].
    apply unpack2_ok in Es. intros Hagree.
    destruct (resample_fn rk _ _) as [idx|e] eqn:Eidx; [|reflexivity].
    specialize (Hagree uk rk idx Es Eidx).
    assert (Eg : tree_map (fun x => take x idx) (particles state1)
                 = tree_map (fun x => take x idx) (particles state2)).
    { apply tree_map_rel_eq. revert Hagree. apply tree_rel_impl.
      intros a b. apply agree_at_take. }
    rewrite Eg. reflexivity. }
  unfold run, calls. rewrite E. split; reflexivity.
Qed.

End StepProperties.

(** ** The instance *)

Module DemoFacts.

Import Demo.

Lemma split_length (key n : nat) : length (split key n) = n.
Proof. unfold split. rewrite length_map, length_seq. reflexivity. Qed.

Lemma round_robin_count : resample_count round_robin.
Proof.
  intros key w n idx. unfold round_robin.
  destruct w as [|x w]; [discriminate|].
  intros H. injection H as <-. rewrite length_map, length_seq. reflexivity.
Qed.

Lemma round_robin_in_range : resample_in_range round_robin.
Proof.
  intros key w n idx. unfold round_robin.
  destruct w as [|x w]; [discriminate|].
  intros H. injection H as <-.
  apply Forall_forall. intros i Hi.
  apply in_map_iff in Hi as (j & <- & _).
  pose proof (Nat.mod_upper_bound j (length (x :: w))) as Hlt.
  simpl length in *. lia.
Qed.

Lemma keep_count : update_count keep.
Proof.
  intros keys p p' ui Hp H. unfold keep in H. injection H as <- _. exact Hp.
Qed.

Lemma first_leaf_count : weight_count first_leaf.
Proof.
  intros p n lw Hp. unfold first_leaf, leading_dimension in *.
  destruct (tree_flatten p) as [|leaf rest]; [discriminate|].
  intros H. injection H as <-. inversion Hp; assumption.
Qed.

Lemma first_leaf_total (p : ArrayTree R) (n : nat) :
  population p n -> exists lw, first_leaf p = Ok lw /\ length lw = n.
Proof.
  intros [Hne Hp]. unfold first_leaf, leading_dimension in *.
  destruct (tree_flatten p) as [|leaf rest]; [contradiction|].
  exists leaf. split; [reflexivity|]. inversion Hp; assumption.
Qed.

Lemma grow_population (keys : list nat) (p : ArrayTree R) (n : nat) :
  population p (S n) ->
  exists p' ui, grow keys p = Ok (p', ui) /\ population p' (S (S n)).
Proof.
  intros [Hne Hp]. unfold grow.
  destruct (tree_map_total (fun leaf : list R => Ok (leaf ++ firstn 1 leaf)) p)
    as [p' Hp'].
  { apply Forall_forall. intros leaf _. eexists. reflexivity. }
  rewrite Hp'. simpl. exists p', (length keys). split; [reflexivity|].
  apply tree_map_rel, tree_rel_flatten in Hp'. split.
  - intros E. rewrite E in Hp'. inversion Hp' as [E'|].
    symmetry in E'. contradiction.
  - unfold leading_dimension in *. clear Hne.
    induction Hp' as [|x y xs ys Hxy _ IH]; constructor.
    + inversion Hp; subst. injection Hxy as <-.
      rewrite length_app. destruct x as [|r x]; simpl in *; [discriminate|].
      lia.
    + inversion Hp; subst. apply IH. assumption.
Qed.

End DemoFacts.

(** ** Indexing, on examples *)

Example getitem_inside : getitem [10; 20; 30]%Z 1 = Ok 20%Z.
Proof. reflexivity. Qed.

Example getitem_from_the_end : getitem [10; 20; 30]%Z (-1) = Ok 30%Z.
Proof. reflexivity. Qed.

Example getitem_clamped_above : getitem [10; 20; 30]%Z 7 = Ok 30%Z.
Proof. reflexivity. Qed.

Example getitem_clamped_below : getitem [10; 20; 30]%Z (-7) = Ok 10%Z.
Proof. reflexivity. Qed.

Example take_repeats : take [10; 20; 30]%Z [2; 0; 2]%Z = Ok [30; 10; 30]%Z.
Proof. reflexivity. Qed.

(** ** The theorems at the instance *)

(** Two particles of equal weight, left where they are and given the
    log-weights [0, 0]: the increment is [ln 2 - ln 2 = 0] and the new
    weights are [1/2, 1/2]. *)
Example step_two_equal_particles :
  exists state' info,
    run (step Demo.split 0%nat Demo.state2 Demo.keep Demo.flat
              Demo.round_robin None) = Ok (state', info) /\
    ancestors info = [0%Z; 1%Z] /\
    log_likelihood_increment info = 0 /\
    weights state' = [1 / 2; 1 / 2].
Proof.
  eexists _, _. split; [reflexivity|]. simpl.
  assert (Emax : Rmax 0 0 = 0) by (apply Rmax_left; lra).
  rewrite Emax.
  replace (0 - 0) with 0 by lra. rewrite exp_0.
  replace (1 + (1 + 0)) with 2 by lra.
  replace (1 + 1) with 2 by lra.
  assert (Ehalf : exp (0 - (ln 2 + 0)) = 1 / 2).
  { replace (0 - (ln 2 + 0)) with (- ln 2) by lra.
    rewrite exp_Ropp, exp_ln by lra. lra. }
  rewrite Ehalf. repeat split. lra.
Qed.

(** Three particles of which two are resampled: the increment is taken
    against 3, and taking it against 2 would give another number. *)
Example increment_against_prior_size (lse : R) :
  lse - ln (INR (length (weights Demo.state3))) <> lse - ln (INR 2).
Proof.
  simpl. intros E.
  assert (H : ln (1 + 1) < ln (1 + 1 + 1)) by (apply ln_increasing; lra).
  lra.
Qed.



Lemma step_ancestors_witness :
  exists state' info,
    run (step Demo.split 0%nat Demo.state3 Demo.keep Demo.first_leaf
              Demo.round_robin (Some 2%nat)) = Ok (state', info) /\
    ancestors info = [0%Z; 1%Z] /\
    length (ancestors info) = 2%nat /\
    Forall (fun i => (0 <= i < 3)%Z) (ancestors info).
Proof.
  eexists _, _. split; [reflexivity|].
  destruct (@step_ancestors nat Demo.split R nat 0%nat Demo.state3 Demo.keep
              Demo.first_leaf Demo.round_robin (Some 2%nat) _ _ eq_refl)
    as (_ & Hlen & Hrange).
  split; [reflexivity|]. split.
  - apply Hlen. exact DemoFacts.round_robin_count.
  - apply Hrange. exact DemoFacts.round_robin_in_range.
Defined.

Lemma step_default_preserves_size_witness :
  exists state' info,
    run (step Demo.split 0%nat Demo.state3 Demo.keep Demo.first_leaf
              Demo.round_robin None) = Ok (state', info) /\
    length (weights state') = length (weights Demo.state3).
Proof.
  eexists _, _. split; [reflexivity|].
  eapply (@step_default_preserves_size nat Demo.split R nat
            DemoFacts.split_length 0%nat Demo.state3 Demo.keep
            Demo.first_leaf Demo.round_robin).
  - exact DemoFacts.round_robin_count.
  - exact DemoFacts.keep_count.
  - exact DemoFacts.first_leaf_count.
  - reflexivity.
Defined.

Lemma state3_population : population (particles Demo.state3) 3.
Proof.
  split; [discriminate|]. unfold leading_dimension. simpl.
  repeat constructor.
Qed.

(** Two of three particles are resampled and the update grows them back
    to three. *)
Lemma step_waste_free_witness :
  exists state' info,
    run (step Demo.split 0%nat Demo.state3 Demo.grow Demo.first_leaf
              Demo.round_robin (Some 2%nat)) = Ok (state', info) /\
    length (ancestors info) = 2%nat /\
    population (particles state') 3 /\
    length (weights state') = 3%nat.
Proof.
  apply (@step_waste_free nat Demo.split R nat DemoFacts.split_length
           0%nat Demo.state3 Demo.grow Demo.first_leaf Demo.round_robin
           2%nat 3%nat).
  - reflexivity.
  - exact state3_population.
  - lia.
  - intros key. eexists. split; reflexivity.
  - intros keys p _. apply DemoFacts.grow_population.
  - intros p. apply DemoFacts.first_leaf_total.
Defined.

(** [state3] and [state3'] differ at the particle that is not
    resampled. *)
Lemma step_reads_only_ancestors_witness :
  particles Demo.state3 <> particles Demo.state3' /\
  run (step Demo.split 0%nat Demo.state3 Demo.keep Demo.first_leaf
            Demo.round_robin (Some 2%nat))
  = run (step Demo.split 0%nat Demo.state3' Demo.keep Demo.first_leaf
              Demo.round_robin (Some 2%nat)) /\
  calls (step Demo.split 0%nat Demo.state3 Demo.keep Demo.first_leaf
              Demo.round_robin (Some 2%nat))
  = calls (step Demo.split 0%nat Demo.state3' Demo.keep Demo.first_leaf
                Demo.round_robin (Some 2%nat)).
Proof.
  split.
  - simpl. intros E. injection E as E. lra.
  - apply (@step_reads_only_ancestors nat Demo.split R nat 0%nat
             Demo.state3 Demo.state3' Demo.keep Demo.first_leaf
             Demo.round_robin (Some 2%nat)).
    + reflexivity.
    + intros uk rk idx _ H. simpl in H. injection H as <-.
      simpl. repeat constructor.
Defined.

Lemma init_uniform_witness :
  exists state,
    init (particles Demo.state3) = Ok state /\
    particles state = particles Demo.state3 /\
    weights state = repeat (1 / INR 3) 3 /\
    length (weights state) = 3%nat /\
    Rsum (weights state) = 1.
Proof.
  apply (@init_uniform R (particles Demo.state3) 3%nat).
  - exact state3_population.
  - lia.
Defined.

Lemma ragged_disagree : leaves_disagree Demo.ragged.
Proof.
  exists [1; 2], [10; 20; 30]. simpl. repeat split.
  - left. reflexivity.
  - right. left. reflexivity.
  - discriminate.
Qed.

(** [init] returns on a tree whose two leaves have leading dimensions 2
    and 3; the weights follow the first leaf. *)
Lemma init_mismatch_counterexample :
  leaves_disagree Demo.ragged /\
  init Demo.ragged
  = Ok {| particles := Demo.ragged; weights := [1 / INR 2; 1 / INR 2] |} /\
  (forall e, init Demo.ragged <> Err e).
Proof.
  split; [exact ragged_disagree|]. split.
  - reflexivity.
  - intros e H. discriminate H.
Qed.

Lemma init_ignores_mismatch_witness :
  exists leaf0 rest,
    tree_flatten Demo.ragged = leaf0 :: rest /\
    init Demo.ragged
    = Ok {| particles := Demo.ragged;
            weights := repeat (1 / INR (length leaf0)) (length leaf0) |}.
Proof.
  apply (@init_ignores_mismatch R Demo.ragged).
  exact ragged_disagree.
Defined.

(** * Further behaviour of [init] and [step] *)

(** ** Initialisation *)

(** X1: [init] raises an [IndexError] on a tree without a leaf; whenever
    it returns, the tree has a first leaf, the particles are the ones it
    was given and there is one weight per slice of that leaf. *)
Theorem init_result (row : Type) (p : ArrayTree row) :
  (tree_flatten p = [] -> init p = Err IndexError) /\
  (forall state,
      init p = Ok state ->
      particles state = p /\
      exists leaf0 rest,
        tree_flatten p = leaf0 :: rest /\
        length (weights state) = length leaf0).
Proof.
  unfold init.
  destruct (tree_flatten p) as [|leaf0 rest]; split.
  - reflexivity.
  - intros state H. discriminate H.
  - intros H. discriminate H.
  - intros state H. injection H as <-. split; [reflexivity|].
    exists leaf0, rest. split; [reflexivity|].
    simpl. unfold jnp_ones. rewrite length_map, repeat_length. reflexivity.
Qed.

(** ** Exceptions of the injected callables *)

Section StepBehaviour.

Variable PRNGKey : Type.
Variable random_split : PRNGKey -> nat -> list PRNGKey.
Variable row : Type.
Variable UpdateInfo : Type.

Hypothesis random_split_length :
  forall key n, length (random_split key n) = n.

Implicit Types (rng_key : PRNGKey) (state : SMCState row)
  (update_fn : UpdateFn PRNGKey row UpdateInfo) (weight_fn : WeightFn row)
  (resample_fn : ResampleFn PRNGKey) (num_resampled : option nat).

(** X2: an exception raised by [resample_fn] is raised by [step], unchanged,
    and neither [update_fn] nor [weight_fn] has been called. *)
Theorem step_resample_raises rng_key state update_fn weight_fn resample_fn
    num_resampled uk rk e :
  random_split rng_key 2 = [uk; rk] ->
  resample_fn rk (weights state) (resampled state num_resampled) = Err e ->
  run (step random_split rng_key state update_fn weight_fn resample_fn
            num_resampled) = Err e /\
  calls (step random_split rng_key state update_fn weight_fn resample_fn
              num_resampled)
  = [CallResample rk (weights state) (resampled state num_resampled)].
Proof.
  intros Hs Hr. unfold run, calls, step, bind, lift, call, ret.
  fold (resampled state num_resampled).
  rewrite Hs. simpl. rewrite Hr. split; reflexivity.
Qed.

(** X3: an exception raised by [update_fn] on the keys and the gathered
    particles is raised by [step], unchanged, and [weight_fn] has not
    been called. *)
Theorem step_update_raises rng_key state update_fn weight_fn resample_fn
    num_resampled uk rk idx g e :
  random_split rng_key 2 = [uk; rk] ->
  resample_fn rk (weights state) (resampled state num_resampled) = Ok idx ->
  tree_rel (gathered idx) (particles state) g ->
  update_fn (random_split uk (resampled state num_resampled)) g = Err e ->
  run (step random_split rng_key state update_fn weight_fn resample_fn
            num_resampled) = Err e /\
  calls (step random_split rng_key state update_fn weight_fn resample_fn
              num_resampled)
  = [CallResample rk (weights state) (resampled state num_resampled);
     CallUpdate (random_split uk (resampled state num_resampled)) g].
Proof.
  intros Hs Hr Hg Hu. apply tree_gather_rel in Hg.
  unfold run, calls, step, bind, lift, call, ret.
  fold (resampled state num_resampled).
  rewrite Hs. simpl. rewrite Hr, Hg, Hu. split; reflexivity.
Qed.

(** X4: an exception raised by [weight_fn] on the particles that [update_fn]
    returned is raised by [step], unchanged. *)
Theorem step_weight_raises rng_key state update_fn weight_fn resample_fn
    num_resampled uk rk idx g p' ui e :
  random_split rng_key 2 = [uk; rk] ->
  resample_fn rk (weights state) (resampled state num_resampled) = Ok idx ->
  tree_rel (gathered idx) (particles state) g ->
  update_fn (random_split uk (resampled state num_resampled)) g
    = Ok (p', ui) ->
  weight_fn p' = Err e ->
  run (step random_split rng_key state update_fn weight_fn resample_fn
            num_resampled) = Err e.
Proof.
  intros Hs Hr Hg Hu Hw. apply tree_gather_rel in Hg.
  unfold run, step, bind, lift, call, ret.
  fold (resampled state num_resampled).
  rewrite Hs. simpl. rewrite Hr, Hg, Hu, Hw. reflexivity.
Qed.

(** ** What [step] hands over and hands back *)

(** X5: the particles and the [update_info] that [step] returns are the pair
    that [update_fn] returned, untouched, for the keys split off the
    updating key and the tree gathered at the ancestors of the report. *)
Theorem step_returns_update_output rng_key state update_fn weight_fn
    resample_fn num_resampled state' info :
  run (step random_split rng_key state update_fn weight_fn resample_fn
            num_resampled) = Ok (state', info) ->
  exists uk rk g,
    random_split rng_key 2 = [uk; rk] /\
    tree_rel (gathered (ancestors info)) (particles state) g /\
    update_fn (random_split uk (resampled state num_resampled)) g
    = Ok (particles state', update_info info).
Proof.
  intros H.
  apply run_step_ok_inv in H
    as (uk & rk & idx & g & ui & lw & lse & Hs & _ & Hg & Hu & _ & _ & _ & ->).
  exists uk, rk, g. simpl. repeat split; try assumption.
  apply tree_gather_rel. exact Hg.
Qed.

(** X6: [update_fn] receives [num_resampled] keys and as many particles as
    [resample_fn] returned indices: the number of keys follows the
    request, the number of particles follows the answer. *)
Theorem step_update_counts rng_key state update_fn weight_fn resample_fn
    num_resampled state' info :
  run (step random_split rng_key state update_fn weight_fn resample_fn
            num_resampled) = Ok (state', info) ->
  exists keys g rest c,
    calls (step random_split rng_key state update_fn weight_fn resample_fn
                num_resampled) = c :: CallUpdate keys g :: rest /\
    length keys = resampled state num_resampled /\
    leading_dimension g (length (ancestors info)).
Proof.
  intros H. unfold run in H. unfold calls.
  destruct (step _ _ _ _ _ _ _ []) as [r log'] eqn:E. simpl in H. subst r.
  apply step_ok_inv in E
    as (uk & rk & idx & g & ui & lw & lse & _ & _ & Hg & _ & _ & _ & _ & -> & ->).
  simpl. eexists _, g, _, _. split; [reflexivity|]. split.
  - apply random_split_length.
  - apply (tree_gather_leading_dimension _ _ Hg).
Qed.

(** ** The numbers that [step] returns *)

Lemma Rsum_map_div (c : R) (l : list R) :
  Rsum (map (fun x => exp x / c) l) = Rsum (map exp l) / c.
Proof.
  induction l as [|x l IH]; simpl.
  - unfold Rdiv. lra.
  - rewrite IH. unfold Rdiv. lra.
Qed.

Lemma Rsum_exp_repeat (c : R) (n : nat) :
  Rsum (map exp (repeat c n)) = INR n * exp c.
Proof. rewrite map_repeat. apply Rsum_repeat. Qed.

(** X7: when [weight_fn] gave at least one log-weight, the returned
    weights are the exponentials of the log-weights divided by their
    sum, which is positive. *)
Theorem step_weights_softmax rng_key state update_fn weight_fn resample_fn
    num_resampled state' info (lw : list R) :
  run (step random_split rng_key state update_fn weight_fn resample_fn
            num_resampled) = Ok (state', info) ->
  weight_fn (particles state') = Ok lw ->
  lw <> [] ->
  0 < Rsum (map exp lw) /\
  weights state' = map (fun x => exp x / Rsum (map exp lw)) lw.
Proof.
  intros H Hw Hne.
  apply run_step_ok_inv in H
    as (uk & rk & idx & g & ui & lw' & lse & _ & _ & _ & _ & Hlw & Hlse & E & _).
  rewrite Hw in Hlw. injection Hlw as <-.
  destruct (logsumexp_ln_sum_exp lw Hlse) as [_ ->].
  pose proof (Rsum_exp_pos Hne) as Hpos.
  split; [exact Hpos|].
  rewrite E. apply map_ext. intros x.
  unfold Rminus. rewrite exp_plus, exp_Ropp, exp_ln by exact Hpos.
  reflexivity.
Qed.

(** X8: for a non-empty incoming population, the exponential of the
    log-likelihood increment is the sum of the exponentials of the
    log-weights divided by the incoming population size. *)
Theorem step_increment_exp rng_key state update_fn weight_fn resample_fn
    num_resampled state' info :
  weights state <> [] ->
  run (step random_split rng_key state update_fn weight_fn resample_fn
            num_resampled) = Ok (state', info) ->
  exists lw,
    weight_fn (particles state') = Ok lw /\
    exp (log_likelihood_increment info)
    = Rsum (map exp lw) / INR (length (weights state)).
Proof.
  intros HN H.
  apply run_step_ok_inv in H
    as (uk & rk & idx & g & ui & lw & lse & _ & _ & _ & _ & Hlw & Hlse & _ & ->).
  destruct (logsumexp_ln_sum_exp lw Hlse) as [Hne ->].
  pose proof (Rsum_exp_pos Hne) as Hpos.
  assert (HNpos : 0 < INR (length (weights state))).
  { apply lt_0_INR. destruct (weights state); [contradiction | simpl; lia]. }
  exists lw. split; [exact Hlw|]. simpl.
  unfold Rminus. rewrite exp_plus, exp_Ropp, !exp_ln by assumption.
  reflexivity.
Qed.

(** X9: a flat potential.  When [weight_fn] gives the log-weight 0 to each
    of [n >= 1] particles, the returned weights are all [1 / n] and the
    increment is [ln n - ln N]. *)
Theorem step_flat_log_weights rng_key state update_fn weight_fn
    resample_fn num_resampled state' info (n : nat) :
  run (step random_split rng_key state update_fn weight_fn resample_fn
            num_resampled) = Ok (state', info) ->
  weight_fn (particles state') = Ok (repeat 0 n) ->
  (1 <= n)%nat ->
  weights state' = repeat (1 / INR n) n /\
  log_likelihood_increment info
  = ln (INR n) - ln (INR (length (weights state))).
Proof.
  intros H Hc Hn.
  apply run_step_ok_inv in H
    as (uk & rk & idx & g & ui & lw & lse & _ & _ & _ & _ & Hlw & Hlse & Hw & ->).
  rewrite Hc in Hlw. injection Hlw as <-.
  destruct (logsumexp_ln_sum_exp _ Hlse) as [_ ->].
  assert (Hpos : 0 < INR n) by (apply lt_0_INR; lia).
  rewrite Rsum_exp_repeat, exp_0, Rmult_1_r in *.
  split.
  - rewrite Hw, map_repeat. f_equal.
    replace (0 - ln (INR n)) with (- ln (INR n)) by lra.
    rewrite exp_Ropp, exp_ln by exact Hpos. lra.
  - reflexivity.
Qed.

(** X10: with any number [s] in the place of the log-sum-exp, the weights
    [exp (lw - s)] of at least one log-weight sum to [exp (L - s)], where
    [L] is the logarithm of the sum of the exponentials: an error in the
    log-sum-exp shows as this factor in the sum of the weights. *)
Theorem normalized_weights_sum (lw : list R) (s : R) :
  lw <> [] ->
  Rsum (normalized_weights lw s) = exp (ln (Rsum (map exp lw)) - s).
Proof.
  intros Hne. pose proof (Rsum_exp_pos Hne) as Hpos.
  unfold normalized_weights. rewrite Rsum_exp_shift.
  unfold Rminus. rewrite exp_plus, exp_ln by exact Hpos. lra.
Qed.

(** ** The incoming weights *)

(** X11: the incoming weights reach the result only through their number and
    through what [resample_fn] makes of them: two states with the same
    particles and as many weights, for which [resample_fn] answers the
    same, give the same result. *)
Theorem step_weights_only_resampled rng_key state1 state2 update_fn
    weight_fn resample_fn num_resampled :
  particles state1 = particles state2 ->
  length (weights state1) = length (weights state2) ->
  (forall uk rk,
      random_split rng_key 2 = [uk; rk] ->
      resample_fn rk (weights state1) (resampled state1 num_resampled)
      = resample_fn rk (weights state2) (resampled state2 num_resampled)) ->
  run (step random_split rng_key state1 update_fn weight_fn resample_fn
            num_resampled)
  = run (step random_split rng_key state2 update_fn weight_fn resample_fn
              num_resampled).
Proof.
  intros Hp Hl Hr. unfold run, step, bind, lift, call, ret.
  fold (resampled state1 num_resampled) (resampled state2 num_resampled).
  assert (HM : resampled state1 num_resampled
               = resampled state2 num_resampled).
  { unfold resampled. destruct num_resampled; [reflexivity | exact Hl]. }
  destruct (unpack2 (random_split rng_key 2)) as [[uk rk]|e] eqn:Es;
    [|reflexivity].
  apply unpack2_ok in Es. rewrite <- (Hr uk rk Es), <- Hp, <- HM, <- Hl.
  destruct (resample_fn rk _ _) as [idx|e]; [|reflexivity].
  destruct (tree_map _ (particles state1)) as [g|e]; [|reflexivity].
  destruct (update_fn _ g) as [[p' ui]|e]; [|reflexivity].
  destruct (weight_fn p') as [lw|e]; [|reflexivity].
  destruct (logsumexp lw) as [lse|e]; reflexivity.
Qed.

(** ** The gather *)

Lemma Forall2_nth_error {A B} (R : A -> B -> Prop) (l : list A) (l' : list B)
    (k : nat) (a : A) :
  Forall2 R l l' -> nth_error l k = Some a ->
  exists b, nth_error l' k = Some b /\ R a b.
Proof.
  intros H. revert k. induction H as [|x y l l' Hxy _ IH]; intros k Hk.
  - destruct k; discriminate Hk.
  - destruct k as [|k]; simpl in *.
    + injection Hk as <-. exists y. split; [reflexivity | exact Hxy].
    + apply IH. exact Hk.
Qed.

Lemma getitem_nat {A} (x : list A) (i : nat) (r : A) :
  nth_error x i = Some r -> getitem x (Z.of_nat i) = Ok r.
Proof.
  intros H.
  assert (Hi : (i < length x)%nat) by (apply nth_error_Some; congruence).
  destruct (@getitem_in_range A x (Z.of_nat i)) as (r' & Hr' & ->); [lia|].
  rewrite Nat2Z.id in Hr'. congruence.
Qed.

Lemma take_in_order_app {A} (pre suf : list A) :
  Forall2 (fun i r => getitem (pre ++ suf) i = Ok r)
          (map Z.of_nat (seq (length pre) (length suf))) suf.
Proof.
  revert pre. induction suf as [|a suf IH]; intros pre; simpl.
  - constructor.
  - constructor.
    + apply getitem_nat. rewrite nth_error_app2 by lia.
      rewrite Nat.sub_diag. reflexivity.
    + specialize (IH (pre ++ [a])).
      rewrite <- app_assoc, length_app in IH. simpl in IH.
      rewrite Nat.add_1_r in IH. exact IH.
Qed.

(** Reading a leaf at [0, 1, ..., n-1] gives the leaf back. *)
Lemma take_in_order {A} (x : list A) :
  take x (map Z.of_nat (seq 0 (length x))) = Ok x.
Proof. apply mapM_Forall2. apply (take_in_order_app [] x). Qed.

Lemma tree_map_id {A} (f : A -> result A) (t : PyTree A) :
  Forall (fun a => f a = Ok a) (tree_flatten t) -> tree_map f t = Ok t.
Proof.
  induction t as [a|cs IH] using PyTree_nested_ind; simpl; intros H.
  - inversion H as [|? ? Ha _]; subst. rewrite Ha. reflexivity.
  - assert (E : mapM (tree_map f) cs = Ok cs).
    { induction IH as [|c cs IHc _ IHcs]; simpl in *.
      - reflexivity.
      - apply Forall_app in H as [Hc Hcs].
        rewrite (IHc Hc). simpl. rewrite (IHcs Hcs). reflexivity. }
    rewrite E. reflexivity.
Qed.

Lemma tree_rel_impl_Forall {A B} (P : A -> Prop) (R S : A -> B -> Prop)
    (t : PyTree A) (t' : PyTree B) :
  (forall a b, P a -> R a b -> S a b) ->
  Forall P (tree_flatten t) -> tree_rel R t t' -> tree_rel S t t'.
Proof.
  intros HRS. revert t'.
  induction t as [a|cs IH] using PyTree_nested_ind; intros t' HP H.
  - inversion H; subst. inversion HP; subst. constructor.
    apply HRS; assumption.
  - inversion H as [|? ds Hds]; subst. constructor. clear H. simpl in HP.
    revert IH HP. induction Hds as [|c d cs ds Hcd _ IHl]; intros IH HP.
    + constructor.
    + inversion IH as [|? ? IHc IHcs]; subst. simpl in HP.
      apply Forall_app in HP as [HPc HPcs].
      constructor; [apply IHc; assumption | apply IHl; assumption].
Qed.

Lemma gathered_selected {A} (idx : list Z) (x y : list A) :
  Forall (fun i => (0 <= i < Z.of_nat (length x))%Z) idx ->
  gathered idx x y -> selected idx x y.
Proof.
  intros Hin H. unfold gathered, selected in *.
  induction H as [|i r idx y Hir _ IH]; constructor.
  - inversion Hin as [|? ? Hi _]; subst.
    destruct (getitem_in_range x Hi) as (r' & Hr' & E).
    split; [lia|]. congruence.
  - apply IH. inversion Hin; assumption.
Qed.

(** X12: when every particle is its own ancestor, [update_fn] receives the
    incoming particles as they are. *)
Theorem step_in_order_ancestors rng_key state update_fn weight_fn
    resample_fn num_resampled uk rk (N : nat) :
  random_split rng_key 2 = [uk; rk] ->
  leading_dimension (particles state) N ->
  resample_fn rk (weights state) (resampled state num_resampled)
  = Ok (map Z.of_nat (seq 0 N)) ->
  exists rest,
    calls (step random_split rng_key state update_fn weight_fn resample_fn
                num_resampled)
    = CallResample rk (weights state) (resampled state num_resampled)
      :: CallUpdate (random_split uk (resampled state num_resampled))
                    (particles state)
      :: rest.
Proof.
  intros Hs Hdim Hr.
  assert (Hg : tree_map (fun x => take x (map Z.of_nat (seq 0 N)))
                        (particles state) = Ok (particles state)).
  { apply tree_map_id. eapply Forall_impl; [|exact Hdim].
    simpl. intros leaf <-. apply take_in_order. }
  unfold calls, step, bind, lift, call, ret.
  fold (resampled state num_resampled).
  rewrite Hs. simpl. rewrite Hr, Hg.
  destruct (update_fn _ _) as [[p' ui]|e]; [|eexists; reflexivity].
  destruct (weight_fn p') as [lw|e]; [|eexists; reflexivity].
  destruct (logsumexp lw) as [lse|e]; eexists; reflexivity.
Qed.

(** X13: when [resample_fn] returns indices into the weight vector and every
    leaf is as long as the weight vector, the tree handed to [update_fn]
    holds, at position [j] of every leaf, the slice of the incoming leaf
    at the [j]-th ancestor: no index is wrapped or clamped. *)
Theorem step_gathers_ancestors rng_key state update_fn weight_fn
    resample_fn num_resampled state' info :
  resample_in_range resample_fn ->
  leading_dimension (particles state) (length (weights state)) ->
  run (step random_split rng_key state update_fn weight_fn resample_fn
            num_resampled) = Ok (state', info) ->
  exists uk g,
    tree_rel (selected (ancestors info)) (particles state) g /\
    update_fn (random_split uk (resampled state num_resampled)) g
    = Ok (particles state', update_info info).
Proof.
  intros Hrange Hdim H.
  apply run_step_ok_inv in H
    as (uk & rk & idx & g & ui & lw & lse & _ & Hidx & Hg & Hu & _ & _ & _ & ->).
  exists uk, g. simpl. split; [|exact Hu].
  apply Hrange in Hidx. apply tree_gather_rel in Hg.
  revert Hg. apply tree_rel_impl_Forall with
    (P := fun leaf : list row => length leaf = length (weights state)).
  - intros x y Hx. apply gathered_selected. rewrite Hx. exact Hidx.
  - exact Hdim.
Qed.

Lemma gathered_getitem (idx1 : list Z) (x y : list row) (j i : Z) :
  gathered idx1 x y -> getitem idx1 j = Ok i -> getitem x i = getitem y j.
Proof.
  intros H Hj. unfold getitem in Hj |- * at 2.
  rewrite <- (Forall2_length H).
  destruct (nth_error idx1 _) as [i'|] eqn:E; [|discriminate Hj].
  injection Hj as ->.
  destruct (Forall2_nth_error _ H E) as (r & Hr & Hxr).
  rewrite Hr. exact Hxr.
Qed.

Lemma gathered_take (idx1 idx2 idx12 : list Z) (x y : list row) :
  gathered idx1 x y -> take idx1 idx2 = Ok idx12 ->
  take x idx12 = take y idx2.
Proof.
  intros H H12. apply mapM_Forall2 in H12. unfold take.
  induction H12 as [|j i idx2 idx12 Hji _ IH]; simpl.
  - reflexivity.
  - rewrite (gathered_getitem _ H Hji), IH. reflexivity.
Qed.

(** X14: lineage over two rounds: gathering at [idx1] and then at [idx2] is
    gathering once at [idx1] read at [idx2]. *)
Theorem gather_twice (p g : ArrayTree row) (idx1 idx2 idx12 : list Z) :
  tree_map (fun x => take x idx1) p = Ok g ->
  take idx1 idx2 = Ok idx12 ->
  tree_map (fun y => take y idx2) g = tree_map (fun x => take x idx12) p.
Proof.
  intros Hg H12. symmetry. apply tree_map_rel_eq.
  apply tree_gather_rel in Hg. revert Hg. apply tree_rel_impl.
  intros x y Hxy. eapply gathered_take; eassumption.
Qed.

(** ** When [step] returns *)




End StepBehaviour.

(** ** The further theorems at the instance *)

Lemma state3_gathered_in_order :
  tree_rel (gathered [0; 1; 2]%Z) (particles Demo.state3)
           (particles Demo.state3).
Proof. apply tree_gather_rel. reflexivity. Qed.

Lemma step_resample_raises_witness :
  run (step Demo.split 0%nat Demo.state3 Demo.keep Demo.first_leaf
            Cases.failing_resample None)
  = Err Cases.resample_error /\
  calls (step Demo.split 0%nat Demo.state3 Demo.keep Demo.first_leaf
              Cases.failing_resample None)
  = [CallResample 2%nat (weights Demo.state3) 3%nat].
Proof.
  apply (@step_resample_raises nat Demo.split R nat 0%nat Demo.state3
           Demo.keep Demo.first_leaf Cases.failing_resample None
           1%nat 2%nat).
  - reflexivity.
  - reflexivity.
Defined.

Lemma step_update_raises_witness :
  run (step Demo.split 0%nat Demo.state3 Cases.failing_update
            Demo.first_leaf Demo.round_robin None)
  = Err Cases.update_error /\
  calls (step Demo.split 0%nat Demo.state3 Cases.failing_update
              Demo.first_leaf Demo.round_robin None)
  = [CallResample 2%nat (weights Demo.state3) 3%nat;
     CallUpdate (Demo.split 1 3) (particles Demo.state3)].
Proof.
  apply (@step_update_raises nat Demo.split R nat 0%nat Demo.state3
           Cases.failing_update Demo.first_leaf Demo.round_robin None
           1%nat 2%nat [0; 1; 2]%Z).
  - reflexivity.
  - reflexivity.
  - exact state3_gathered_in_order.
  - reflexivity.
Defined.

Lemma step_weight_raises_witness :
  run (step Demo.split 0%nat Demo.state3 Demo.keep Cases.failing_weight
            Demo.round_robin None)
  = Err Cases.weight_error.
Proof.
  apply (@step_weight_raises nat Demo.split R nat 0%nat Demo.state3
           Demo.keep Cases.failing_weight Demo.round_robin None
           1%nat 2%nat [0; 1; 2]%Z (particles Demo.state3)
           (particles Demo.state3) 3%nat).
  - reflexivity.
  - reflexivity.
  - exact state3_gathered_in_order.
  - reflexivity.
  - reflexivity.
Defined.

Lemma step_returns_update_output_witness :
  exists state' info,
    run (step Demo.split 0%nat Demo.state3 Demo.grow Demo.first_leaf
              Demo.round_robin (Some 2%nat)) = Ok (state', info) /\
    exists uk rk g,
      Demo.split 0 2 = [uk; rk] /\
      tree_rel (gathered (ancestors info)) (particles Demo.state3) g /\
      Demo.grow (Demo.split uk 2) g
      = Ok (particles state', update_info info).
Proof.
  eexists _, _. split; [reflexivity|].
  apply (@step_returns_update_output nat Demo.split R nat 0%nat Demo.state3
           Demo.grow Demo.first_leaf Demo.round_robin (Some 2%nat)).
  reflexivity.
Defined.

Lemma step_update_counts_witness :
  exists state' info,
    run (step Demo.split 0%nat Demo.state3 Demo.grow Demo.first_leaf
              Demo.round_robin (Some 2%nat)) = Ok (state', info) /\
    exists keys g rest c,
      calls (step Demo.split 0%nat Demo.state3 Demo.grow Demo.first_leaf
                  Demo.round_robin (Some 2%nat))
      = c :: CallUpdate keys g :: rest /\
      length keys = 2%nat /\
      leading_dimension g (length (ancestors info)).
Proof.
  eexists _, _. split; [reflexivity|].
  eapply (@step_update_counts nat Demo.split R nat DemoFacts.split_length
           0%nat Demo.state3 Demo.grow Demo.first_leaf Demo.round_robin
           (Some 2%nat)).
  reflexivity.
Defined.

Lemma step_increment_exp_witness :
  exists state' info,
    run (step Demo.split 0%nat Demo.state3 Demo.keep Demo.first_leaf
              Demo.round_robin (Some 2%nat)) = Ok (state', info) /\
    exists lw,
      Demo.first_leaf (particles state') = Ok lw /\
      exp (log_likelihood_increment info)
      = Rsum (map exp lw) / INR (length (weights Demo.state3)).
Proof.
  eexists _, _. split; [reflexivity|].
  apply (@step_increment_exp nat Demo.split R nat 0%nat Demo.state3
           Demo.keep Demo.first_leaf Demo.round_robin (Some 2%nat)).
  - discriminate.
  - reflexivity.
Defined.

Lemma step_weights_only_resampled_witness :
  weights Demo.state3 <> weights Cases.state3w /\
  run (step Demo.split 0%nat Demo.state3 Demo.keep Demo.first_leaf
            Demo.round_robin None)
  = run (step Demo.split 0%nat Cases.state3w Demo.keep Demo.first_leaf
              Demo.round_robin None).
Proof.
  split.
  - simpl. intros E. injection E as E _. lra.
  - apply (@step_weights_only_resampled nat Demo.split R nat 0%nat
             Demo.state3 Cases.state3w Demo.keep Demo.first_leaf
             Demo.round_robin None).
    + reflexivity.
    + reflexivity.
    + intros uk rk _. reflexivity.
Defined.

Lemma state3_leading_dimension : leading_dimension (particles Demo.state3) 3.
Proof. apply state3_population. Qed.

Lemma step_in_order_ancestors_witness :
  exists rest,
    calls (step Demo.split 0%nat Demo.state3 Demo.keep Demo.first_leaf
                Cases.in_order (Some 5%nat))
    = CallResample 2%nat (weights Demo.state3) 5%nat
      :: CallUpdate (Demo.split 1 5) (particles Demo.state3)
      :: rest.
Proof.
  apply (@step_in_order_ancestors nat Demo.split R nat 0%nat Demo.state3
           Demo.keep Demo.first_leaf Cases.in_order (Some 5%nat)
           1%nat 2%nat 3%nat).
  - reflexivity.
  - exact state3_leading_dimension.
  - reflexivity.
Defined.

Lemma step_gathers_ancestors_witness :
  exists state' info,
    run (step Demo.split 0%nat Demo.state3 Demo.keep Demo.first_leaf
              Demo.round_robin (Some 5%nat)) = Ok (state', info) /\
    exists uk g,
      tree_rel (selected (ancestors info)) (particles Demo.state3) g /\
      Demo.keep (Demo.split uk 5) g
      = Ok (particles state', update_info info).
Proof.
  eexists _, _. split; [reflexivity|].
  apply (@step_gathers_ancestors nat Demo.split R nat 0%nat Demo.state3
           Demo.keep Demo.first_leaf Demo.round_robin (Some 5%nat)).
  - exact DemoFacts.round_robin_in_range.
  - exact state3_leading_dimension.
  - reflexivity.
Defined.

Lemma gather_twice_witness :
  exists g,
    tree_map (fun x => take x [2; 0; 0]%Z) (particles Demo.state3) = Ok g /\
    tree_map (fun y => take y [1; 2]%Z) g
    = tree_map (fun x => take x [0; 0]%Z) (particles Demo.state3).
Proof.
  eexists. split; [reflexivity|].
  apply (@gather_twice R (particles Demo.state3) _ [2; 0; 0]%Z [1; 2]%Z
           [0; 0]%Z).
  - reflexivity.
  - reflexivity.
Defined.





Lemma step_weights_softmax_witness :
  exists state' info,
    run (step Demo.split 0%nat Demo.state3 Demo.keep Demo.first_leaf
              Demo.round_robin None) = Ok (state', info) /\
    0 < Rsum (map exp [1; 2; 4]) /\
    weights state' = map (fun x => exp x / Rsum (map exp [1; 2; 4])) [1; 2; 4].
Proof.
  eexists _, _. split; [reflexivity|].
  eapply (@step_weights_softmax nat Demo.split R nat 0%nat Demo.state3
            Demo.keep Demo.first_leaf Demo.round_robin None).
  - reflexivity.
  - reflexivity.
  - discriminate.
Defined.

Lemma step_flat_log_weights_witness :
  exists state' info,
    run (step Demo.split 0%nat Demo.state2 Demo.keep Demo.flat
              Demo.round_robin None) = Ok (state', info) /\
    weights state' = repeat (1 / INR 2) 2 /\
    log_likelihood_increment info
    = ln (INR 2) - ln (INR (length (weights Demo.state2))).
Proof.
  eexists _, _. split; [reflexivity|].
  apply (@step_flat_log_weights nat Demo.split R nat 0%nat Demo.state2
           Demo.keep Demo.flat Demo.round_robin None).
  - reflexivity.
  - reflexivity.
  - lia.
Defined.

Lemma normalized_weights_sum_witness :
  Rsum (normalized_weights [1; 2; 4] 4) = exp (ln (Rsum (map exp [1; 2; 4])) - 4).
Proof.
  apply (@normalized_weights_sum [1; 2; 4] 4).
  discriminate.
Defined.

(** ** The normalisation in single precision *)











